(** * The virtual-register name table of the PPC port

    A shallow embedding of [ports/hotspot/src/cpu/ppc/vm/vmreg_ppc.cpp]:
    [VMRegImpl::set_regName], which fills the table [regName] with the
    display names of the integer and floating-point registers, and the
    stub [VMRegImpl::as_Register]. *)

From stdpp Require Import base numbers list gmap strings pretty.

Local Open Scope Z_scope.

(** ** Register descriptors *)

(** Modelled from the spec: the classes [RegisterImpl] and
    [FloatRegisterImpl] are declared in a header, not in
    [vmreg_ppc.cpp].  The data model describes a physical register as an
    identifier with a canonical display name and a successor; of a
    register, [set_regName] uses exactly [::as_Register(int)] or
    [::as_FloatRegister(int)], [name()] and [successor()]. *)
Class AbstractRegisterImpl (R : Type) := {
  from_encoding : Z → R;
  successor : R → R;
  name : R → string
}.

(** Modelled from the spec: a register is "an architecture-defined
    identifier", and its successor is "the next-numbered register".
    [set_regName] does not read the number; only the results on the
    index-to-register mapping rely on it. *)
Class NextNumbered (R : Type) `{!AbstractRegisterImpl R} := {
  encoding : R → Z;
  encoding_from_encoding : ∀ e : Z, encoding (from_encoding e) = e;
  encoding_successor : ∀ r : R, encoding (successor r) = encoding r + 1
}.

Definition as_Register {Register : Type}
    `{!AbstractRegisterImpl Register} (e : Z) : Register :=
  from_encoding e.

Definition as_FloatRegister {FloatRegister : Type}
    `{!AbstractRegisterImpl FloatRegister} (e : Z) : FloatRegister :=
  from_encoding e.

(** The register reached from [r] by [k] successor steps. *)
Definition nth_successor {R : Type} `{!AbstractRegisterImpl R}
    (k : Z) (r : R) : R :=
  Nat.iter (Z.to_nat k) successor r.

(** ** Architecture constants *)

(** The three constants of [ConcreteRegisterImpl] that [set_regName]
    reads.  Their values are fixed in a header, not in [vmreg_ppc.cpp],
    so they are parameters here. *)
Record ConcreteRegisterImpl := {
  max_gpr : Z;
  max_fpr : Z;
  number_of_registers : Z
}.

(** The architecture as the specification describes it: the number of
    integer registers, the number of floating-point registers and the
    capacity of the table. *)
Record Architecture := {
  MaxGPR : Z;
  MaxFPR : Z;
  MaxVirtualRegisters : Z
}.

(** Modelled from the spec: the definition of [ConcreteRegisterImpl] is
    not in [vmreg_ppc.cpp].  The specification places the integer registers at
    the indices below [MaxGPR] and lets the float loop run until the
    cursor reaches [MaxGPR + MaxFPR]; [set_regName] compares that same
    running cursor with [max_gpr] and then with [max_fpr], so [max_fpr]
    is the index at which the float block ends. *)
Definition constants (a : Architecture) : ConcreteRegisterImpl :=
  {| max_gpr := MaxGPR a;
     max_fpr := MaxGPR a + MaxFPR a;
     number_of_registers := MaxVirtualRegisters a |}.

(** ** Conditions *)

(** Modelled from the spec: the error taxonomy.  [vmreg_ppc.cpp] itself
    only ever calls [Unimplemented()]. *)
Inductive condition := UnimplementedPath | OutOfRange.

(** The result of a call that is declared to return an [A]. *)
Inductive answer (A : Type) :=
  | Returns (a : A)
  | Signals (c : condition).
Arguments Returns {A} a.
Arguments Signals {A} c.

(** ** The table *)

Inductive physical (Register FloatRegister : Type) :=
  | Integer (r : Register)
  | Float (f : FloatRegister).
Arguments Integer {Register FloatRegister} r.
Arguments Float {Register FloatRegister} f.

(** Modelled from the spec: the declaration of [regName] is in a header,
    not in [vmreg_ppc.cpp]; the specification gives the table exactly
    [MaxVirtualRegisters] entries, so the array has
    [number_of_registers] slots, the indices of
    [0, number_of_registers).

    [regName] holds the names by index (a slot that was never assigned
    holds none).  A store at an index outside the array is undefined in
    C++: the model keeps what the store instruction does, the cell at
    that offset from [regName] receives the name, and records the index
    in [overrun], so that every result can tell whether a run stayed
    inside the array.  Two more fields are bookkeeping: [origin]
    remembers which register's name an index received, and [signalled]
    lists, in order, the conditions that were signalled, each with the
    value of the cursor at that moment. *)
Record table (Register FloatRegister : Type) := {
  regName : gmap Z string;
  origin : gmap Z (physical Register FloatRegister);
  overrun : list Z;
  signalled : list (Z * condition)
}.
Arguments regName {Register FloatRegister} t.
Arguments origin {Register FloatRegister} t.
Arguments overrun {Register FloatRegister} t.
Arguments signalled {Register FloatRegister} t.

Definition physical_name {Register FloatRegister : Type}
    `{!AbstractRegisterImpl Register, !AbstractRegisterImpl FloatRegister}
    (p : physical Register FloatRegister) : string :=
  match p with
  | Integer r => name r
  | Float f => name f
  end.

Module VMRegImpl.
Section VMRegImpl.
Context {Register FloatRegister : Type}.
Context `{!AbstractRegisterImpl Register}.
Context `{!AbstractRegisterImpl FloatRegister}.

Local Abbreviation physical := (physical Register FloatRegister).
Local Abbreviation table := (table Register FloatRegister).

(** The table before [set_regName] has run. *)
Definition initial : table :=
  {| regName := ∅; origin := ∅; overrun := []; signalled := [] |}.

(** Modelled from the spec: the macro [Unimplemented()] is not defined
    in [vmreg_ppc.cpp]; the specification calls it a trap that signals
    the "not implemented" condition.  A call does not come back: it
    yields no value, whatever type the caller expects. *)
Definition Unimplemented {A : Type} : answer A := Signals UnimplementedPath.

(** A condition signalled while the cursor is at [i]. *)
Definition signal (i : Z) (c : condition) (t : table) : table :=
  {| regName := regName t;
     origin := origin t;
     overrun := overrun t;
     signalled := signalled t ++ [(i, c)] |}.

Variable C : ConcreteRegisterImpl.

(** [regName[i] = n], where [n] is the name of [p].  The array has the
    slots [0, number_of_registers); a store outside them is recorded in
    [overrun]. *)
Definition assign (i : Z) (n : string) (p : physical) (t : table) : table :=
  {| regName := <[i := n]> (regName t);
     origin := <[i := p]> (origin t);
     overrun :=
       if bool_decide (0 ≤ i < number_of_registers C) then overrun t
       else overrun t ++ [i];
     signalled := signalled t |}.

(** The array proper: the contents of the slots
    [0, number_of_registers), in order. *)
Definition entries (t : table) : list (option string) :=
  (λ j : Z, regName t !! j) <$> seqZ 0 (number_of_registers C).

(** [for ( ; i < limit ; ) { regName[i++] = reg->name();
                             reg = reg->successor(); }]
    The loop is the same for the two register classes; [tag] only
    says which class [reg] belongs to.  The cursor is an [int] that is
    incremented only while it is below a bound that is an [int] itself,
    so it never wraps and [Z] is exact.  [fuel] bounds the number of
    times the condition is evaluated; [None] means it ran out. *)
Fixpoint fill {R : Type} `{!AbstractRegisterImpl R} (tag : R → physical)
    (limit : Z) (fuel : nat) (i : Z) (reg : R) (t : table)
    : option (Z * table) :=
  match fuel with
  | O => None
  | S fuel =>
      if bool_decide (i < limit) then
        fill tag limit fuel (i + 1) (successor reg)
             (assign i (name reg) (tag reg) t)
      else Some (i, t)
  end.

(** [for ( ; i < number_of_registers; i++) { Unimplemented(); }]
    The body is a call of the trap: the first time the condition holds
    the run stops there, with the condition recorded at the cursor; the
    increment would only be reached if the call came back. *)
Fixpoint trap (fuel : nat) (i : Z) (t : table) : option table :=
  match fuel with
  | O => None
  | S fuel =>
      if bool_decide (i < number_of_registers C) then
        match Unimplemented with
        | Returns tt => trap fuel (i + 1) t
        | Signals c => Some (signal i c t)
        end
      else Some t
  end.

(** The result is the table at the moment the routine stops: when it
    returns, or when the trap is hit; in the second case, and only then,
    the run has added a condition to [signalled]. *)
Definition set_regName (fuel : nat) (t : table) : option table :=
  let i := 0 in
  let reg : Register := as_Register 0 in
  '(i, t) ← fill Integer (max_gpr C) fuel i reg t;
  let freg : FloatRegister := as_FloatRegister 0 in
  '(i, t) ← fill Float (max_fpr C) fuel i freg t;
  trap fuel i t.

(** [Register VMRegImpl::as_Register() { Unimplemented(); }]
    [this] is the virtual register the method is called on. *)
Definition as_Register (this : Z) : answer Register :=
  Unimplemented.

End VMRegImpl.
End VMRegImpl.

(** ** Runs

    A loop or the routine _terminates in_ a result when every large
    enough amount of fuel produces that result. *)

Section Runs.
Context {Register FloatRegister : Type}.
Context `{!AbstractRegisterImpl Register}.
Context `{!AbstractRegisterImpl FloatRegister}.

Local Abbreviation physical := (physical Register FloatRegister).
Local Abbreviation table := (table Register FloatRegister).

Definition fill_to (C : ConcreteRegisterImpl) {R : Type}
    `{!AbstractRegisterImpl R} (tag : R → physical)
    (limit i : Z) (reg : R) (t : table) (r : Z * table) : Prop :=
  ∃ n : nat, ∀ fuel : nat, (n ≤ fuel)%nat →
    VMRegImpl.fill C tag limit fuel i reg t = Some r.

Definition trap_to (C : ConcreteRegisterImpl) (i : Z) (t t' : table) : Prop :=
  ∃ n : nat, ∀ fuel : nat, (n ≤ fuel)%nat →
    VMRegImpl.trap C fuel i t = Some t'.

Definition runs_to (C : ConcreteRegisterImpl) (t t' : table) : Prop :=
  ∃ n : nat, ∀ fuel : nat, (n ≤ fuel)%nat →
    VMRegImpl.set_regName C fuel t = Some t'.

(** The indices of [l] that are not slots of the array. *)
Definition outside (C : ConcreteRegisterImpl) (l : list Z) : list Z :=
  filter (λ j : Z, ¬ (0 ≤ j < number_of_registers C)) l.

(** What one run of the fill loop leaves behind: the indices from the
    cursor up to the limit hold the names of the successive registers,
    every other index is as before, those of them that are not slots of
    the array are added to [overrun], nothing was signalled. *)
Record filled (C : ConcreteRegisterImpl) {R : Type}
    `{!AbstractRegisterImpl R} (tag : R → physical)
    (limit i : Z) (reg : R) (t t' : table) : Prop := {
  filled_inside : ∀ j : Z, i ≤ j < limit →
    regName t' !! j = Some (name (nth_successor (j - i) reg)) ∧
    origin t' !! j = Some (tag (nth_successor (j - i) reg));
  filled_outside : ∀ j : Z, ¬ (i ≤ j < limit) →
    regName t' !! j = regName t !! j ∧ origin t' !! j = origin t !! j;
  filled_overrun :
    overrun t' = overrun t ++ outside C (seqZ i (limit - i));
  filled_signalled : signalled t' = signalled t
}.

(** What the trap loop leaves behind: the table is untouched, and the
    condition is signalled once, at the cursor, when the cursor is below
    the limit. *)
Record trapped (limit i : Z) (t t' : table) : Prop := {
  trapped_regName : regName t' = regName t;
  trapped_origin : origin t' = origin t;
  trapped_overrun : overrun t' = overrun t;
  trapped_signalled :
    signalled t' =
    signalled t ++
      (if bool_decide (i < limit) then [(i, UnimplementedPath)] else [])
}.

(** The cursor when the integer loop, and then the float loop, stops. *)
Definition gpr_end (C : ConcreteRegisterImpl) : Z := Z.max 0 (max_gpr C).
Definition fpr_end (C : ConcreteRegisterImpl) : Z :=
  Z.max (gpr_end C) (max_fpr C).

(** The three loops of one run of [set_regName], from [t] through the
    intermediate tables [t1] and [t2] to [t']. *)
Record phases (C : ConcreteRegisterImpl) (t t1 t2 t' : table) : Prop := {
  gpr_loop :
    fill_to C Integer (max_gpr C) 0 (as_Register 0) t (gpr_end C, t1);
  gpr_filled : filled C Integer (max_gpr C) 0 (as_Register 0) t t1;
  fpr_loop :
    fill_to C Float (max_fpr C) (gpr_end C) (as_FloatRegister 0) t1
      (fpr_end C, t2);
  fpr_filled :
    filled C Float (max_fpr C) (gpr_end C) (as_FloatRegister 0) t1 t2;
  trap_loop : trap_to C (fpr_end C) t2 t';
  trap_trapped : trapped (number_of_registers C) (fpr_end C) t2 t'
}.

(** The number of loop-condition evaluations that is always enough. *)
Definition enough (C : ConcreteRegisterImpl) : nat :=
  S (Z.to_nat (Z.max (max_gpr C) (Z.max (max_fpr C) (number_of_registers C)))).

End Runs.

Arguments gpr_end : simpl never.
Arguments fpr_end : simpl never.

(** ** A sample architecture

    Registers numbered from zero and displayed as [r0], [r1], ... and
    [f0], [f1], ...; the constants are those of the concrete scenario of
    the specification (32 integer registers, 32 floating-point registers,
    100 virtual registers).  The general results below are evaluated on
    it. *)

Module Sample.

Inductive gpr := GPR (e : Z).
Inductive fpr := FPR (e : Z).

#[export] Instance gpr_impl : AbstractRegisterImpl gpr := {|
  from_encoding := GPR;
  successor := λ '(GPR e), GPR (e + 1);
  name := λ '(GPR e), "r" +:+ pretty e
|}.

#[export] Instance fpr_impl : AbstractRegisterImpl fpr := {|
  from_encoding := FPR;
  successor := λ '(FPR e), FPR (e + 1);
  name := λ '(FPR e), "f" +:+ pretty e
|}.

#[export] Instance gpr_numbered : NextNumbered gpr := {|
  encoding := λ '(GPR e), e;
  encoding_from_encoding := λ e, eq_refl;
  encoding_successor := λ r, match r with GPR e => eq_refl end
|}.

#[export] Instance fpr_numbered : NextNumbered fpr := {|
  encoding := λ '(FPR e), e;
  encoding_from_encoding := λ e, eq_refl;
  encoding_successor := λ r, match r with FPR e => eq_refl end
|}.

Definition scenario : Architecture :=
  {| MaxGPR := 32; MaxFPR := 32; MaxVirtualRegisters := 100 |}.

Definition start : table gpr fpr := VMRegImpl.initial.

End Sample.

(** ** Lemmas on the loops *)

Section Loops.
Context {Register FloatRegister : Type}.
Context `{!AbstractRegisterImpl Register}.
Context `{!AbstractRegisterImpl FloatRegister}.

Local Abbreviation physical := (physical Register FloatRegister).
Local Abbreviation table := (table Register FloatRegister).

Lemma nth_successor_0 {R : Type} `{!AbstractRegisterImpl R} (r : R) :
  nth_successor 0 r = r.
Proof. reflexivity. Qed.

Lemma nth_successor_shift {R : Type} `{!AbstractRegisterImpl R} (k : Z) (r : R) :
  0 ≤ k → nth_successor k (successor r) = nth_successor (k + 1) r.
Proof.
  intros Hk. unfold nth_successor.
  replace (Z.to_nat (k + 1)) with (S (Z.to_nat k)) by lia.
  by rewrite Nat.iter_succ_r.
Qed.

Lemma nth_successor_next {R : Type} `{!AbstractRegisterImpl R} (k : Z) (r : R) :
  0 ≤ k → nth_successor (k + 1) r = successor (nth_successor k r).
Proof.
  intros Hk. unfold nth_successor.
  by replace (Z.to_nat (k + 1)) with (S (Z.to_nat k)) by lia.
Qed.

Lemma encoding_nth_successor {R : Type} `{!AbstractRegisterImpl R}
    `{!NextNumbered R} (k : Z) (r : R) :
  0 ≤ k → encoding (nth_successor k r) = encoding r + k.
Proof.
  intros Hk. unfold nth_successor.
  rewrite <- (Z2Nat.id k) at 2 by done.
  induction (Z.to_nat k) as [|n IH]; simpl; [lia|].
  rewrite encoding_successor, IH. lia.
Qed.

Lemma elem_of_outside (C : ConcreteRegisterImpl) (l : list Z) (j : Z) :
  j ∈ outside C l ↔ ¬ (0 ≤ j < number_of_registers C) ∧ j ∈ l.
Proof. unfold outside. by rewrite list_elem_of_filter. Qed.

Lemma outside_cons (C : ConcreteRegisterImpl) (i : Z) (l : list Z) :
  outside C (i :: l) =
  (if bool_decide (0 ≤ i < number_of_registers C) then [] else [i]) ++
  outside C l.
Proof.
  unfold outside. rewrite filter_cons.
  destruct (decide (¬ (0 ≤ i < number_of_registers C))) as [Hn|Hn].
  - by rewrite bool_decide_eq_false_2.
  - rewrite bool_decide_eq_true_2; [done|]. by apply dec_stable.
Qed.

(** More fuel never changes a result. *)
Lemma fill_mono (C : ConcreteRegisterImpl) {R : Type}
    `{!AbstractRegisterImpl R} (tag : R → physical)
    (limit : Z) (fuel fuel' : nat) (i : Z) (reg : R) (t : table) r :
  VMRegImpl.fill C tag limit fuel i reg t = Some r → (fuel ≤ fuel')%nat →
  VMRegImpl.fill C tag limit fuel' i reg t = Some r.
Proof.
  revert fuel' i reg t.
  induction fuel as [|fuel IH]; intros fuel' i reg t Hrun Hle; [done|].
  destruct fuel' as [|fuel']; [lia|]. simpl in *.
  case_bool_decide; [|done]. apply IH; [done|lia].
Qed.

Lemma trap_mono (C : ConcreteRegisterImpl) (fuel fuel' : nat) (i : Z)
    (t t' : table) :
  VMRegImpl.trap C fuel i t = Some t' → (fuel ≤ fuel')%nat →
  VMRegImpl.trap C fuel' i t = Some t'.
Proof.
  intros Hrun Hle. destruct fuel as [|fuel]; [done|].
  destruct fuel' as [|fuel']; [lia|]. done.
Qed.

Lemma set_regName_mono (C : ConcreteRegisterImpl) (fuel fuel' : nat)
    (t t' : table) :
  VMRegImpl.set_regName C fuel t = Some t' → (fuel ≤ fuel')%nat →
  VMRegImpl.set_regName C fuel' t = Some t'.
Proof.
  unfold VMRegImpl.set_regName. intros Hrun Hle.
  destruct (VMRegImpl.fill C Integer _ fuel _ _ _) as [[i1 t1]|] eqn:H1;
    [|done].
  simpl in Hrun.
  destruct (VMRegImpl.fill C Float _ fuel _ _ _) as [[i2 t2]|] eqn:H2;
    [|done].
  simpl in Hrun.
  rewrite (fill_mono _ _ _ _ _ _ _ _ _ H1 Hle). simpl.
  rewrite (fill_mono _ _ _ _ _ _ _ _ _ H2 Hle). simpl.
  by eapply trap_mono.
Qed.

(** A run that produced a result with some fuel terminates in it. *)
Lemma runs_to_intro (C : ConcreteRegisterImpl) (fuel : nat) (t t' : table) :
  VMRegImpl.set_regName C fuel t = Some t' → runs_to C t t'.
Proof. intros Hrun. exists fuel. intros fuel' Hle. by eapply set_regName_mono. Qed.

Lemma runs_to_unique (C : ConcreteRegisterImpl) (t t1 t2 : table) :
  runs_to C t t1 → runs_to C t t2 → t1 = t2.
Proof.
  intros [n1 H1] [n2 H2].
  specialize (H1 (n1 `max` n2)%nat ltac:(lia)).
  specialize (H2 (n1 `max` n2)%nat ltac:(lia)). congruence.
Qed.

(** With one more unit of fuel than there are indices between the cursor
    and the limit, the fill loop stops by its own condition. *)
Lemma fill_spec (C : ConcreteRegisterImpl) {R : Type}
    `{!AbstractRegisterImpl R} (tag : R → physical)
    (limit : Z) (fuel : nat) (i : Z) (reg : R) (t : table) :
  (Z.to_nat (limit - i) < fuel)%nat →
  ∃ t' : table,
    VMRegImpl.fill C tag limit fuel i reg t = Some (Z.max i limit, t') ∧
    filled C tag limit i reg t t'.
Proof.
  revert i reg t.
  induction fuel as [|fuel IH]; intros i reg t Hfuel; [lia|].
  simpl. case_bool_decide as Hlt.
  - destruct (IH (i + 1) (successor reg)
                (VMRegImpl.assign C i (name reg) (tag reg) t))
      as (t' & Hrun & Hpost); [lia|].
    exists t'. split.
    { rewrite Hrun. do 2 f_equal. lia. }
    destruct Hpost as [Hin Hout Hover Hsig]. split.
    + intros j Hj. destruct (decide (j = i)) as [->|Hne].
      * replace (i - i) with 0 by lia. rewrite nth_successor_0.
        destruct (Hout i ltac:(lia)) as [-> ->]. simpl.
        by rewrite !lookup_insert_eq.
      * destruct (Hin j ltac:(lia)) as [-> ->].
        rewrite nth_successor_shift by lia.
        by replace (j - (i + 1) + 1) with (j - i) by lia.
    + intros j Hj. destruct (Hout j ltac:(lia)) as [-> ->]. simpl.
      rewrite !lookup_insert_ne by lia. done.
    + rewrite Hover. simpl.
      rewrite (seqZ_cons i) by lia. rewrite outside_cons.
      replace (Z.succ i) with (i + 1) by lia.
      replace (Z.pred (limit - i)) with (limit - (i + 1)) by lia.
      case_bool_decide; [done|]. by rewrite <- app_assoc.
    + by rewrite Hsig.
  - exists t. split.
    { do 2 f_equal. lia. }
    split; [intros j Hj; lia|done| |done].
    rewrite seqZ_nil by lia. unfold outside. simpl. by rewrite app_nil_r.
Qed.

(** The trap loop evaluates its condition once. *)
Lemma trap_spec (C : ConcreteRegisterImpl) (fuel : nat) (i : Z) (t : table) :
  (0 < fuel)%nat →
  ∃ t' : table,
    VMRegImpl.trap C fuel i t = Some t' ∧
    trapped (number_of_registers C) i t t'.
Proof.
  intros Hfuel. destruct fuel as [|fuel]; [lia|].
  simpl. case_bool_decide as Hlt.
  - eexists. split; [done|]. split; [done|done|done|].
    by rewrite bool_decide_eq_true_2.
  - exists t. split; [done|]. split; [done|done|done|].
    rewrite bool_decide_eq_false_2 by done. by rewrite app_nil_r.
Qed.

(** Every run goes through the three loops and ends; the fuel bound does
    not depend on the table. *)
Lemma set_regName_phases (C : ConcreteRegisterImpl) (t : table) :
  ∃ t1 t2 t' : table,
    phases C t t1 t2 t' ∧
    ∀ fuel : nat, (enough C ≤ fuel)%nat →
      VMRegImpl.set_regName C fuel t = Some t'.
Proof.
  destruct (fill_spec C Integer (max_gpr C) (enough C) 0 (as_Register 0) t)
    as (t1 & H1 & F1); [unfold enough; lia|].
  destruct (fill_spec C Float (max_fpr C) (enough C) (gpr_end C)
              (as_FloatRegister 0) t1)
    as (t2 & H2 & F2); [unfold enough, gpr_end; lia|].
  destruct (trap_spec C (enough C) (fpr_end C) t2)
    as (t' & H3 & F3); [unfold enough; lia|].
  exists t1, t2, t'. split.
  - split; [|done| |done| |done].
    + exists (enough C). intros fuel Hle. by eapply fill_mono.
    + exists (enough C). intros fuel Hle. by eapply fill_mono.
    + exists (enough C). intros fuel Hle. by eapply trap_mono.
  - intros fuel Hle. apply (set_regName_mono C (enough C)); [|done].
    unfold VMRegImpl.set_regName. fold (gpr_end C) in H1.
    rewrite H1. cbn [mbind option_bind]. rewrite H2. done.
Qed.

(** The table at the end of a run, index by index. *)
Lemma phases_gpr (C : ConcreteRegisterImpl) (t t1 t2 t' : table) (j : Z) :
  phases C t t1 t2 t' → 0 ≤ j < max_gpr C →
  regName t' !! j = Some (name (nth_successor j (as_Register 0 : Register))) ∧
  origin t' !! j = Some (Integer (nth_successor j (as_Register 0))).
Proof.
  intros [_ F1 _ F2 _ F3] Hj.
  rewrite (trapped_regName _ _ _ _ F3), (trapped_origin _ _ _ _ F3).
  destruct (filled_outside _ _ _ _ _ _ _ F2 j) as [-> ->];
    [unfold gpr_end; lia|].
  destruct (filled_inside _ _ _ _ _ _ _ F1 j Hj) as [-> ->].
  by replace (j - 0) with j by lia.
Qed.

Lemma phases_fpr (C : ConcreteRegisterImpl) (t t1 t2 t' : table) (j : Z) :
  phases C t t1 t2 t' → gpr_end C ≤ j < max_fpr C →
  regName t' !! j =
    Some (name (nth_successor (j - gpr_end C)
                  (as_FloatRegister 0 : FloatRegister))) ∧
  origin t' !! j =
    Some (Float (nth_successor (j - gpr_end C) (as_FloatRegister 0))).
Proof.
  intros [_ F1 _ F2 _ F3] Hj.
  rewrite (trapped_regName _ _ _ _ F3), (trapped_origin _ _ _ _ F3).
  by destruct (filled_inside _ _ _ _ _ _ _ F2 j Hj) as [-> ->].
Qed.

Lemma phases_rest (C : ConcreteRegisterImpl) (t t1 t2 t' : table) (j : Z) :
  phases C t t1 t2 t' → ¬ (0 ≤ j < fpr_end C) →
  regName t' !! j = regName t !! j ∧ origin t' !! j = origin t !! j.
Proof.
  intros [_ F1 _ F2 _ F3] Hj. unfold fpr_end, gpr_end in Hj.
  rewrite (trapped_regName _ _ _ _ F3), (trapped_origin _ _ _ _ F3).
  destruct (filled_outside _ _ _ _ _ _ _ F2 j) as [-> ->];
    [unfold gpr_end; lia|].
  destruct (filled_outside _ _ _ _ _ _ _ F1 j) as [-> ->]; [lia|done].
Qed.

(** A run signals at most once: at the cursor where the float loop
    stopped, when that cursor is below [number_of_registers]. *)
Lemma phases_signalled (C : ConcreteRegisterImpl) (t t1 t2 t' : table) :
  phases C t t1 t2 t' →
  signalled t' =
  signalled t ++
    (if bool_decide (fpr_end C < number_of_registers C)
     then [(fpr_end C, UnimplementedPath)] else []).
Proof.
  intros [_ F1 _ F2 _ F3].
  rewrite (trapped_signalled _ _ _ _ F3).
  by rewrite (filled_signalled _ _ _ _ _ _ _ F2),
    (filled_signalled _ _ _ _ _ _ _ F1).
Qed.

Lemma elem_of_trap_index (i limit j : Z) (c : condition) :
  (j, c) ∈ (if bool_decide (i < limit) then [(i, UnimplementedPath)] else []) ↔
  c = UnimplementedPath ∧ j = i ∧ i < limit.
Proof.
  case_bool_decide as Hlt.
  - rewrite list_elem_of_singleton. split.
    + by intros [= -> ->].
    + by intros (-> & -> & _).
  - split; [by intros ?%elem_of_nil|]. by intros (_ & _ & ?).
Qed.

(** The stores of a run that fell outside the array. *)
Lemma phases_overrun (C : ConcreteRegisterImpl) (t t1 t2 t' : table) :
  phases C t t1 t2 t' →
  ∃ l : list Z,
    overrun t' = overrun t ++ l ∧
    ∀ j : Z,
      j ∈ l ↔ 0 ≤ j < fpr_end C ∧ ¬ (0 ≤ j < number_of_registers C).
Proof.
  intros [_ F1 _ F2 _ F3].
  exists (outside C (seqZ 0 (max_gpr C - 0)) ++
          outside C (seqZ (gpr_end C) (max_fpr C - gpr_end C))).
  split.
  - rewrite (trapped_overrun _ _ _ _ F3), (filled_overrun _ _ _ _ _ _ _ F2),
      (filled_overrun _ _ _ _ _ _ _ F1). by rewrite <- app_assoc.
  - intros j. rewrite elem_of_app, !elem_of_outside, !elem_of_seqZ.
    unfold fpr_end, gpr_end. lia.
Qed.

End Loops.

(** ** The name table after [set_regName] *)

Section NameTable.
Context {Register FloatRegister : Type}.
Context `{!AbstractRegisterImpl Register}.
Context `{!AbstractRegisterImpl FloatRegister}.

Local Abbreviation physical := (physical Register FloatRegister).
Local Abbreviation table := (table Register FloatRegister).

Lemma gpr_end_constants (a : Architecture) :
  0 ≤ MaxGPR a → gpr_end (constants a) = MaxGPR a.
Proof. unfold gpr_end. simpl. lia. Qed.

Lemma fpr_end_constants (a : Architecture) :
  0 ≤ MaxGPR a → 0 ≤ MaxFPR a →
  fpr_end (constants a) = MaxGPR a + MaxFPR a.
Proof. unfold fpr_end, gpr_end. simpl. lia. Qed.

(** C3: after [set_regName] has run, every slot [i] in [0, MaxGPR)
    holds the display name of the integer register reached from the first
    one, [as_Register(0)], by [i] successor steps. *)
Theorem regName_integer_registers (a : Architecture) (t : table) :
  ∃ t' : table,
    runs_to (constants a) t t' ∧
    ∀ i : Z, 0 ≤ i < MaxGPR a →
      regName t' !! i =
        Some (name (nth_successor i (as_Register 0 : Register))).
Proof.
  destruct (set_regName_phases (constants a) t) as (t1 & t2 & t' & Hph & Hrun).
  exists t'. split; [by exists (enough (constants a))|].
  intros i Hi. by apply (phases_gpr _ _ _ _ _ _ Hph).
Qed.

(** C1: after [set_regName] has run, every slot [i] in
    [MaxGPR, MaxGPR + MaxFPR) holds the display name of the float
    register reached from the first one, [as_FloatRegister(0)], by
    [i - MaxGPR] successor steps; the float loop starts with the cursor
    at [MaxGPR], where the integer loop stopped, and stops when the
    cursor has reached [MaxGPR + MaxFPR]. *)
Theorem regName_float_registers (a : Architecture) (t : table) :
  0 ≤ MaxGPR a → 0 ≤ MaxFPR a →
  ∃ t1 t2 t' : table,
    fill_to (constants a) Integer (max_gpr (constants a)) 0 (as_Register 0) t
      (MaxGPR a, t1) ∧
    fill_to (constants a) Float (max_fpr (constants a)) (MaxGPR a)
      (as_FloatRegister 0) t1 (MaxGPR a + MaxFPR a, t2) ∧
    trap_to (constants a) (MaxGPR a + MaxFPR a) t2 t' ∧
    runs_to (constants a) t t' ∧
    ∀ i : Z, MaxGPR a ≤ i < MaxGPR a + MaxFPR a →
      regName t' !! i =
        Some (name (nth_successor (i - MaxGPR a)
                      (as_FloatRegister 0 : FloatRegister))).
Proof.
  intros Hg Hf.
  destruct (set_regName_phases (constants a) t) as (t1 & t2 & t' & Hph & Hrun).
  pose proof (gpr_end_constants a Hg) as Eg.
  pose proof (fpr_end_constants a Hg Hf) as Ef.
  exists t1, t2, t'.
  pose proof (gpr_loop _ _ _ _ _ Hph) as L1.
  pose proof (fpr_loop _ _ _ _ _ Hph) as L2.
  pose proof (trap_loop _ _ _ _ _ Hph) as L3.
  rewrite Eg in L1. rewrite Eg, Ef in L2. rewrite Ef in L3.
  split; [done|]. split; [done|]. split; [done|].
  split; [by exists (enough (constants a))|].
  intros i Hi.
  destruct (phases_fpr _ _ _ _ _ i Hph) as [Hn _]; [rewrite Eg; simpl; lia|].
  by rewrite Eg in Hn.
Qed.

(** C7, amended: a run of [set_regName] hits the trap at most once.  It
    signals [Unimplemented()] if and only if
    [MaxGPR + MaxFPR < MaxVirtualRegisters], with the cursor at
    [MaxGPR + MaxFPR], the first index above the physical range, and
    stops there: no higher index is reached, and no name is written in
    any slot of [MaxGPR + MaxFPR, MaxVirtualRegisters). *)
Theorem unimplemented_once_above_physical (a : Architecture) (t : table) :
  0 ≤ MaxGPR a → 0 ≤ MaxFPR a →
  ∃ (t' : table) (l : list (Z * condition)),
    runs_to (constants a) t t' ∧
    signalled t' = signalled t ++ l ∧
    l = (if bool_decide (MaxGPR a + MaxFPR a < MaxVirtualRegisters a)
         then [(MaxGPR a + MaxFPR a, UnimplementedPath)] else []) ∧
    (∀ (i : Z) (c : condition),
       (i, c) ∈ l ↔
       c = UnimplementedPath ∧
       i = MaxGPR a + MaxFPR a ∧ i < MaxVirtualRegisters a) ∧
    (∀ i : Z, MaxGPR a + MaxFPR a ≤ i < MaxVirtualRegisters a →
       regName t' !! i = regName t !! i).
Proof.
  intros Hg Hf.
  destruct (set_regName_phases (constants a) t) as (t1 & t2 & t' & Hph & Hrun).
  pose proof (fpr_end_constants a Hg Hf) as Ef.
  pose proof (phases_signalled _ _ _ _ _ Hph) as Hs.
  rewrite Ef in Hs. simpl in Hs.
  eexists t', _. split; [by exists (enough (constants a))|].
  split; [exact Hs|]. split; [done|]. split.
  - intros i c. rewrite elem_of_trap_index. split.
    + intros (-> & -> & Hlt). done.
    + intros (-> & -> & Hlt). done.
  - intros i Hi. apply (phases_rest _ _ _ _ _ i Hph). rewrite Ef. lia.
Qed.

(** C9: [set_regName] terminates for every choice of the constants.  Each
    loop stops (by its own condition or, the third one, in the trap)
    after at most as many iterations as there are indices between its
    starting cursor and its bound, and the whole run needs no more than
    [enough C] evaluations of a loop condition. *)
Theorem set_regName_terminates (C : ConcreteRegisterImpl) (t : table) :
  ∃ t1 t2 t' : table,
    (∀ fuel : nat, (Z.to_nat (max_gpr C - 0) < fuel)%nat →
       VMRegImpl.fill C Integer (max_gpr C) fuel 0 (as_Register 0) t =
         Some (gpr_end C, t1)) ∧
    (∀ fuel : nat, (Z.to_nat (max_fpr C - gpr_end C) < fuel)%nat →
       VMRegImpl.fill C Float (max_fpr C) fuel (gpr_end C)
         (as_FloatRegister 0) t1 = Some (fpr_end C, t2)) ∧
    (∀ fuel : nat, (Z.to_nat (number_of_registers C - fpr_end C) < fuel)%nat →
       VMRegImpl.trap C fuel (fpr_end C) t2 = Some t') ∧
    (∀ fuel : nat, (enough C ≤ fuel)%nat →
       VMRegImpl.set_regName C fuel t = Some t').
Proof.
  destruct (fill_spec C Integer (max_gpr C) (S (Z.to_nat (max_gpr C - 0))) 0
              (as_Register 0) t) as (t1 & H1 & _); [lia|].
  destruct (fill_spec C Float (max_fpr C)
              (S (Z.to_nat (max_fpr C - gpr_end C))) (gpr_end C)
              (as_FloatRegister 0) t1) as (t2 & H2 & _); [lia|].
  destruct (trap_spec C (S (Z.to_nat (number_of_registers C - fpr_end C)))
              (fpr_end C) t2) as (t' & H3 & _); [lia|].
  fold (gpr_end C) in H1. fold (fpr_end C) in H2.
  exists t1, t2, t'.
  split; [intros fuel Hf; apply (fill_mono _ _ _ _ _ _ _ _ _ H1); lia|].
  split; [intros fuel Hf; apply (fill_mono _ _ _ _ _ _ _ _ _ H2); lia|].
  split; [intros fuel Hf; apply (trap_mono _ _ _ _ _ _ H3); lia|].
  intros fuel Hf. unfold VMRegImpl.set_regName.
  rewrite (fill_mono _ _ _ _ fuel _ _ _ _ H1)
    by (unfold enough in Hf; lia).
  cbn [mbind option_bind].
  rewrite (fill_mono _ _ _ _ fuel _ _ _ _ H2)
    by (unfold enough, gpr_end in *; lia).
  cbn [mbind option_bind].
  apply (trap_mono _ _ _ _ _ _ H3). unfold enough, fpr_end, gpr_end in *. lia.
Qed.

(** C10, amended: for a non-negative [max_gpr], a run of [set_regName]
    on the fresh table hits the [Unimplemented()] trap if and only if
    [number_of_registers] exceeds the larger of [max_gpr] and [max_fpr].
    When [max_gpr <= max_fpr] and [number_of_registers = max_fpr], the
    trap loop stops at its first test, nothing is signalled, every store
    was inside the table, and the slots that hold a name are exactly
    those of [0, max_fpr). *)
Theorem unimplemented_reached_iff (C : ConcreteRegisterImpl) :
  0 ≤ max_gpr C →
  ∃ t1 t2 t' : table,
    phases C VMRegImpl.initial t1 t2 t' ∧
    runs_to C VMRegImpl.initial t' ∧
    ((∃ i : Z, (i, UnimplementedPath) ∈ signalled t') ↔
     Z.max (max_gpr C) (max_fpr C) < number_of_registers C) ∧
    (max_gpr C ≤ max_fpr C → number_of_registers C = max_fpr C →
       VMRegImpl.trap C 1 (max_fpr C) t2 = Some t2 ∧
       t' = t2 ∧
       signalled t' = [] ∧
       overrun t' = [] ∧
       ∀ j : Z, is_Some (regName t' !! j) ↔ 0 ≤ j < max_fpr C).
Proof.
  intros Hg.
  destruct (set_regName_phases C (VMRegImpl.initial : table))
    as (t1 & t2 & t' & Hph & Hrun).
  exists t1, t2, t'. split; [done|].
  split; [by exists (enough C)|].
  pose proof (phases_signalled _ _ _ _ _ Hph) as Hs. simpl in Hs.
  assert (Ef : fpr_end C = Z.max (max_gpr C) (max_fpr C))
    by (unfold fpr_end, gpr_end; lia).
  split.
  - rewrite Hs. split.
    + intros [i Hi]. apply elem_of_trap_index in Hi as (_ & _ & Hi). lia.
    + intros Hlt. exists (fpr_end C). apply elem_of_trap_index.
      split; [done|]. split; [done|lia].
  - intros Hle Hn.
    assert (Ef' : fpr_end C = max_fpr C) by lia.
    assert (Hnil : signalled t' = []).
    { rewrite Hs. by rewrite bool_decide_eq_false_2 by lia. }
    assert (Hover : overrun t' = []).
    { destruct (phases_overrun _ _ _ _ _ Hph) as (l & Hl & Hmem).
      rewrite Hl. simpl. apply elem_of_nil_inv. intros j Hj.
      apply Hmem in Hj. lia. }
    assert (Heq : t' = t2).
    { destruct (trap_trapped _ _ _ _ _ Hph) as [Hn' Ho' Hv' Hs'].
      rewrite bool_decide_eq_false_2 in Hs' by lia.
      rewrite app_nil_r in Hs'.
      destruct t', t2; simpl in *; congruence. }
    split.
    { simpl. rewrite bool_decide_eq_false_2 by lia. done. }
    split; [done|]. split; [done|]. split; [done|].
    intros j. destruct (decide (0 ≤ j < max_fpr C)) as [Hj|Hj].
    + split; [done|]. intros _.
      destruct (decide (j < max_gpr C)) as [Hlt|Hge].
      * destruct (phases_gpr _ _ _ _ _ j Hph) as [-> _]; [lia|done].
      * destruct (phases_fpr _ _ _ _ _ j Hph) as [-> _];
          [unfold gpr_end; lia|done].
    + destruct (phases_rest _ _ _ _ _ j Hph) as [-> _]; [lia|].
      simpl. rewrite lookup_empty. split; [by intros [? ?]|done].
Qed.

(** C4: whatever virtual register it is called on, [as_Register] signals
    the "not implemented" condition and returns no register. *)
Theorem as_Register_always_unimplemented (this : Z) :
  VMRegImpl.as_Register (Register := Register) this =
    Signals UnimplementedPath ∧
  (∀ r : Register, VMRegImpl.as_Register this ≠ Returns r) ∧
  (∀ other : Z,
     VMRegImpl.as_Register (Register := Register) other =
     VMRegImpl.as_Register this).
Proof. split; [done|]. split; [by intros r|done]. Qed.

(** C2, amended: for non-negative [MaxGPR] and [MaxFPR] satisfying
    [MaxGPR + MaxFPR <= MaxVirtualRegisters], after [set_regName] has run
    on the fresh table the table has exactly [MaxVirtualRegisters]
    entries and no store fell outside them; every entry in
    [0, MaxGPR + MaxFPR) is a name, non-empty when no register has an
    empty display name; every entry in
    [MaxGPR + MaxFPR, MaxVirtualRegisters) holds no name. *)
Theorem physical_slots_named (a : Architecture) :
  0 ≤ MaxGPR a → 0 ≤ MaxFPR a →
  MaxGPR a + MaxFPR a ≤ MaxVirtualRegisters a →
  (∀ r : Register, name r ≠ EmptyString) →
  (∀ f : FloatRegister, name f ≠ EmptyString) →
  ∃ t' : table,
    runs_to (constants a) VMRegImpl.initial t' ∧
    length (VMRegImpl.entries (constants a) t') =
      Z.to_nat (MaxVirtualRegisters a) ∧
    overrun t' = [] ∧
    (∀ i : Z, 0 ≤ i < MaxGPR a + MaxFPR a →
       ∃ n : string, regName t' !! i = Some n ∧ n ≠ EmptyString) ∧
    (∀ i : Z, MaxGPR a + MaxFPR a ≤ i < MaxVirtualRegisters a →
       regName t' !! i = None).
Proof.
  intros Hg Hf Hinv Hr Hfr.
  destruct (set_regName_phases (constants a) (VMRegImpl.initial : table))
    as (t1 & t2 & t' & Hph & Hrun).
  pose proof (gpr_end_constants a Hg) as Eg.
  pose proof (fpr_end_constants a Hg Hf) as Ef.
  exists t'. split; [by exists (enough (constants a))|].
  split; [|split; [|split]].
  - unfold VMRegImpl.entries. rewrite length_fmap, length_seqZ. done.
  - destruct (phases_overrun _ _ _ _ _ Hph) as (l & Hl & Hmem).
    rewrite Hl. simpl. apply elem_of_nil_inv. intros j Hj.
    apply Hmem in Hj. rewrite Ef in Hj. simpl in Hj. lia.
  - intros i Hi. destruct (decide (i < MaxGPR a)) as [Hlt|Hge].
    + destruct (phases_gpr _ _ _ _ _ i Hph) as [-> _]; [simpl; lia|].
      eexists. split; [done|apply Hr].
    + destruct (phases_fpr _ _ _ _ _ i Hph) as [-> _];
        [rewrite Eg; simpl; lia|].
      eexists. split; [done|apply Hfr].
  - intros i Hi. destruct (phases_rest _ _ _ _ _ i Hph) as [-> _];
      [rewrite Ef; lia|]. simpl. apply lookup_empty.
Qed.

(** C5, amended: for every [i] in [0, MaxGPR), slot [i] holds the display
    name of the [i]-th integer register in successor order, while
    [as_Register] called on [i] returns no register: it signals the
    "not implemented" condition, so there is no reverse lookup for the
    table to agree with. *)
Theorem forward_lookup_only (a : Architecture) (t : table) :
  ∃ t' : table,
    runs_to (constants a) t t' ∧
    ∀ i : Z, 0 ≤ i < MaxGPR a →
      regName t' !! i =
        Some (name (nth_successor i (as_Register 0 : Register))) ∧
      VMRegImpl.as_Register (Register := Register) i =
        Signals UnimplementedPath.
Proof.
  destruct (set_regName_phases (constants a) t) as (t1 & t2 & t' & Hph & Hrun).
  exists t'. split; [by exists (enough (constants a))|].
  intros i Hi. split; [|done]. by apply (phases_gpr _ _ _ _ _ _ Hph).
Qed.

(** C6, amended: for every index [i >= MaxGPR] and every negative index,
    [as_Register] signals the "not implemented" condition (not
    [OutOfRange]); it returns a register for no index at all. *)
Theorem out_of_range_is_unimplemented (a : Architecture) (i : Z) :
  MaxGPR a ≤ i ∨ i < 0 →
  VMRegImpl.as_Register (Register := Register) i = Signals UnimplementedPath ∧
  VMRegImpl.as_Register (Register := Register) i ≠ Signals OutOfRange ∧
  ∀ (j : Z) (r : Register), VMRegImpl.as_Register j ≠ Returns r.
Proof. intros _. split; [done|]. split; [done|]. by intros j r. Qed.

End NameTable.

(** ** The index-to-register mapping *)

Section Bijection.
Context {Register FloatRegister : Type}.
Context `{!AbstractRegisterImpl Register}.
Context `{!AbstractRegisterImpl FloatRegister}.
Context `{!NextNumbered Register}.
Context `{!NextNumbered FloatRegister}.

Local Abbreviation physical := (physical Register FloatRegister).
Local Abbreviation table := (table Register FloatRegister).

Lemma encoding_nth_register (k : Z) :
  0 ≤ k → encoding (nth_successor k (as_Register 0 : Register)) = k.
Proof.
  intros Hk. rewrite encoding_nth_successor by done.
  unfold as_Register. rewrite encoding_from_encoding. lia.
Qed.

Lemma encoding_nth_float_register (k : Z) :
  0 ≤ k → encoding (nth_successor k (as_FloatRegister 0 : FloatRegister)) = k.
Proof.
  intros Hk. rewrite encoding_nth_successor by done.
  unfold as_FloatRegister. rewrite encoding_from_encoding. lia.
Qed.

(** C8: the mapping from index to physical register that a run of
    [set_regName] establishes covers every index of
    [0, MaxGPR + MaxFPR) and the names in the table are those of the
    mapped registers; distinct indices are mapped to distinct registers;
    within each class the index after [i] is mapped to the successor of
    the register at [i]; index 0 is mapped to the first integer register
    (when [MaxGPR] is positive, so that there is one);
    and index [i] is mapped to the integer register numbered [i] below
    [MaxGPR] and to the float register numbered [i - MaxGPR] from there
    on, so the mapping preserves the order and reaches every one of these
    registers. *)
Theorem index_register_bijection (a : Architecture) (t : table) :
  0 ≤ MaxGPR a → 0 ≤ MaxFPR a →
  ∃ t' : table,
    runs_to (constants a) t t' ∧
    (∀ i : Z, 0 ≤ i < MaxGPR a + MaxFPR a →
       ∃ p : physical,
         origin t' !! i = Some p ∧ regName t' !! i = Some (physical_name p)) ∧
    (∀ (i j : Z) (p : physical),
       0 ≤ i < MaxGPR a + MaxFPR a → 0 ≤ j < MaxGPR a + MaxFPR a →
       origin t' !! i = Some p → origin t' !! j = Some p → i = j) ∧
    (∀ (i : Z) (r : Register),
       0 ≤ i → i + 1 < MaxGPR a →
       origin t' !! i = Some (Integer r) →
       origin t' !! (i + 1) = Some (Integer (successor r))) ∧
    (∀ (i : Z) (f : FloatRegister),
       MaxGPR a ≤ i → i + 1 < MaxGPR a + MaxFPR a →
       origin t' !! i = Some (Float f) →
       origin t' !! (i + 1) = Some (Float (successor f))) ∧
    (0 < MaxGPR a → origin t' !! 0 = Some (Integer (as_Register 0))) ∧
    (∀ i : Z, 0 ≤ i < MaxGPR a →
       ∃ r : Register, origin t' !! i = Some (Integer r) ∧ encoding r = i) ∧
    (∀ i : Z, MaxGPR a ≤ i < MaxGPR a + MaxFPR a →
       ∃ f : FloatRegister,
         origin t' !! i = Some (Float f) ∧ encoding f = i - MaxGPR a).
Proof.
  intros Hg Hf.
  destruct (set_regName_phases (constants a) t) as (t1 & t2 & t' & Hph & Hrun).
  pose proof (gpr_end_constants a Hg) as Eg.
  assert (HG : ∀ i : Z, 0 ≤ i < MaxGPR a →
            regName t' !! i =
              Some (name (nth_successor i (as_Register 0 : Register))) ∧
            origin t' !! i = Some (Integer (nth_successor i (as_Register 0)))).
  { intros i Hi. by apply (phases_gpr _ _ _ _ _ i Hph). }
  assert (HF : ∀ i : Z, MaxGPR a ≤ i < MaxGPR a + MaxFPR a →
            regName t' !! i =
              Some (name (nth_successor (i - MaxGPR a)
                            (as_FloatRegister 0 : FloatRegister))) ∧
            origin t' !! i =
              Some (Float (nth_successor (i - MaxGPR a) (as_FloatRegister 0)))).
  { intros i Hi.
    destruct (phases_fpr _ _ _ _ _ i Hph) as [Hn Ho]; [rewrite Eg; simpl; lia|].
    rewrite Eg in Hn, Ho. done. }
  exists t'. split; [by exists (enough (constants a))|].
  split; [|split; [|split; [|split; [|split; [|split]]]]].
  - intros i Hi. destruct (decide (i < MaxGPR a)) as [Hlt|Hge].
    + destruct (HG i ltac:(lia)) as [Hn Ho]. eexists. split; [exact Ho|done].
    + destruct (HF i ltac:(lia)) as [Hn Ho]. eexists. split; [exact Ho|done].
  - intros i j p Hi Hj Hpi Hpj.
    destruct (decide (i < MaxGPR a)) as [Hil|Hig];
      destruct (decide (j < MaxGPR a)) as [Hjl|Hjg].
    + destruct (HG i ltac:(lia)) as [_ Hoi].
      destruct (HG j ltac:(lia)) as [_ Hoj].
      rewrite Hoi in Hpi. rewrite Hoj in Hpj.
      assert (E : nth_successor i (as_Register 0 : Register) =
                  nth_successor j (as_Register 0)) by congruence.
      apply (f_equal encoding) in E.
      rewrite !encoding_nth_register in E by lia. done.
    + destruct (HG i ltac:(lia)) as [_ Hoi].
      destruct (HF j ltac:(lia)) as [_ Hoj]. congruence.
    + destruct (HF i ltac:(lia)) as [_ Hoi].
      destruct (HG j ltac:(lia)) as [_ Hoj]. congruence.
    + destruct (HF i ltac:(lia)) as [_ Hoi].
      destruct (HF j ltac:(lia)) as [_ Hoj].
      rewrite Hoi in Hpi. rewrite Hoj in Hpj.
      assert (E : nth_successor (i - MaxGPR a)
                    (as_FloatRegister 0 : FloatRegister) =
                  nth_successor (j - MaxGPR a) (as_FloatRegister 0))
        by congruence.
      apply (f_equal encoding) in E.
      rewrite !encoding_nth_float_register in E by lia. lia.
  - intros i r Hi Hi' Ho.
    destruct (HG i ltac:(lia)) as [_ Hoi].
    destruct (HG (i + 1) ltac:(lia)) as [_ ->].
    rewrite nth_successor_next by lia. congruence.
  - intros i f Hi Hi' Ho.
    destruct (HF i ltac:(lia)) as [_ Hoi].
    destruct (HF (i + 1) ltac:(lia)) as [_ ->].
    replace (i + 1 - MaxGPR a) with (i - MaxGPR a + 1) by lia.
    rewrite nth_successor_next by lia. congruence.
  - intros Hpos. destruct (HG 0 ltac:(lia)) as [_ ->]. done.
  - intros i Hi. destruct (HG i Hi) as [_ ->].
    eexists. split; [done|]. apply encoding_nth_register. lia.
  - intros i Hi. destruct (HF i Hi) as [_ ->].
    eexists. split; [done|]. apply encoding_nth_float_register. lia.
Qed.

End Bijection.

(** ** The results on the sample architecture *)

Section OnSample.
Import Sample.

(** One run on the sample architecture, evaluated: the first and last
    integer register, the first and last float register, the first
    slot above them, the stores outside the table and the conditions
    signalled. *)
Example set_regName_on_sample :
  (t' ← VMRegImpl.set_regName (constants scenario) 101 start;
   Some (regName t' !! 0, regName t' !! 31, regName t' !! 32,
         regName t' !! 63, regName t' !! 64, overrun t', signalled t')) =
  Some (Some "r0", Some "r31", Some "f0", Some "f31", None, [],
        [(64, UnimplementedPath)]).
Proof. vm_compute. reflexivity. Qed.

(** Each fill loop of the sample tests its condition 33 times. *)
Example set_regName_fuel_on_sample :
  VMRegImpl.set_regName (constants scenario) 32 start = None ∧
  is_Some (VMRegImpl.set_regName (constants scenario) 33 start).
Proof. split; [vm_compute; reflexivity|]. vm_compute. eauto. Qed.

(** A table of three entries and four float registers: the fourth name
    is stored outside the table. *)
Example set_regName_past_the_table :
  (t' ← VMRegImpl.set_regName
          {| max_gpr := 0; max_fpr := 4; number_of_registers := 3 |} 10 start;
   Some (VMRegImpl.entries
           {| max_gpr := 0; max_fpr := 4; number_of_registers := 3 |} t',
         overrun t', signalled t')) =
  Some ([Some "f0"; Some "f1"; Some "f2"], [3], []).
Proof. vm_compute. reflexivity. Qed.

Example as_Register_on_sample :
  VMRegImpl.as_Register (Register := gpr) 0 = Signals UnimplementedPath.
Proof. reflexivity. Qed.

Lemma sample_names_not_empty :
  (∀ r : gpr, name r ≠ EmptyString) ∧ (∀ f : fpr, name f ≠ EmptyString).
Proof. split; intros [e]; simpl; discriminate. Defined.

(** C3 on the sample: slot 31 holds the name of the last integer
    register. *)
Lemma regName_integer_registers_witness :
  ∃ t' : table gpr fpr,
    runs_to (constants scenario) start t' ∧ regName t' !! 31 = Some "r31".
Proof.
  destruct (regName_integer_registers scenario start) as (t' & Hrun & H).
  exists t'. split; [exact Hrun|].
  rewrite (H 31) by (simpl; lia). reflexivity.
Defined.

(** C1 on the sample: slots 32 and 63 hold the names of the first and
    the last float register. *)
Lemma regName_float_registers_witness :
  ∃ t' : table gpr fpr,
    runs_to (constants scenario) start t' ∧
    regName t' !! 32 = Some "f0" ∧ regName t' !! 63 = Some "f31".
Proof.
  destruct (regName_float_registers scenario start)
    as (t1 & t2 & t' & _ & _ & _ & Hrun & H); [simpl; lia|simpl; lia|].
  exists t'. split; [exact Hrun|].
  rewrite (H 32), (H 63) by (simpl; lia). split; reflexivity.
Defined.

(** C7, amended, on the sample: the condition is signalled once, for
    index 64, and slot 64 holds no name. *)
Lemma unimplemented_once_above_physical_witness :
  ∃ t' : table gpr fpr,
    runs_to (constants scenario) start t' ∧
    signalled t' = [(64, UnimplementedPath)] ∧
    regName t' !! 64 = None.
Proof.
  destruct (unimplemented_once_above_physical scenario start)
    as (t' & l & Hrun & Hs & Hl & _ & Hn); [simpl; lia|simpl; lia|].
  exists t'. split; [exact Hrun|]. split.
  - rewrite Hs, Hl. reflexivity.
  - rewrite (Hn 64) by (simpl; lia). reflexivity.
Defined.

(** C8 on the sample: index 0 is the first integer register, index 40
    the float register numbered 8. *)
Lemma index_register_bijection_witness :
  ∃ t' : table gpr fpr,
    runs_to (constants scenario) start t' ∧
    origin t' !! 0 = Some (Integer (GPR 0)) ∧
    ∃ f : fpr, origin t' !! 40 = Some (Float f) ∧ encoding f = 8.
Proof.
  destruct (index_register_bijection scenario start)
    as (t' & Hrun & _ & _ & _ & _ & H0 & _ & HF); [simpl; lia|simpl; lia|].
  exists t'. split; [exact Hrun|]. split.
  - apply H0. simpl. lia.
  - apply (HF 40). simpl. lia.
Defined.

(** C10, amended, on constants with [number_of_registers = max_fpr]:
    nothing is signalled, no store is outside the table, slot 63 is
    written and index 64 is not. *)
Lemma unimplemented_reached_iff_witness :
  ∃ t' : table gpr fpr,
    runs_to {| max_gpr := 32; max_fpr := 64; number_of_registers := 64 |}
      start t' ∧
    signalled t' = [] ∧ overrun t' = [] ∧
    is_Some (regName t' !! 63) ∧ ¬ is_Some (regName t' !! 64).
Proof.
  destruct (unimplemented_reached_iff (Register := gpr) (FloatRegister := fpr)
              {| max_gpr := 32; max_fpr := 64; number_of_registers := 64 |})
    as (t1 & t2 & t' & _ & Hrun & _ & H); [simpl; lia|].
  destruct H as (_ & _ & Hs & Hv & Hdom); [simpl; lia|reflexivity|].
  exists t'. split; [exact Hrun|]. split; [exact Hs|]. split; [exact Hv|].
  split.
  - apply Hdom. simpl. lia.
  - intros Hin. apply Hdom in Hin. simpl in Hin. lia.
Defined.

(** C2, amended, on the sample. *)
Lemma physical_slots_named_witness :
  ∃ t' : table gpr fpr,
    runs_to (constants scenario) start t' ∧
    length (VMRegImpl.entries (constants scenario) t') = 100%nat ∧
    overrun t' = [] ∧
    (∃ n : string, regName t' !! 63 = Some n ∧ n ≠ EmptyString) ∧
    regName t' !! 64 = None.
Proof.
  destruct (physical_slots_named (Register := gpr) (FloatRegister := fpr)
              scenario)
    as (t' & Hrun & Hlen & Hv & Hin & Hnone);
    [simpl; lia|simpl; lia|simpl; lia
    |exact (proj1 sample_names_not_empty)
    |exact (proj2 sample_names_not_empty)|].
  exists t'. split; [exact Hrun|]. split; [exact Hlen|]. split; [exact Hv|].
  split.
  - apply Hin. simpl. lia.
  - apply Hnone. simpl. lia.
Defined.

(** C5, amended, on the sample. *)
Lemma forward_lookup_only_witness :
  ∃ t' : table gpr fpr,
    runs_to (constants scenario) start t' ∧
    regName t' !! 5 = Some "r5" ∧
    VMRegImpl.as_Register (Register := gpr) 5 = Signals UnimplementedPath.
Proof.
  destruct (forward_lookup_only scenario start) as (t' & Hrun & H).
  exists t'. split; [exact Hrun|].
  destruct (H 5) as [Hn Hr]; [simpl; lia|].
  split; [rewrite Hn; reflexivity|exact Hr].
Defined.

(** C6, amended, on the sample: the first index that is not below
    [MaxGPR], and a negative one. *)
Lemma out_of_range_is_unimplemented_witness :
  VMRegImpl.as_Register (Register := gpr) 32 = Signals UnimplementedPath ∧
  VMRegImpl.as_Register (Register := gpr) (-1) = Signals UnimplementedPath.
Proof.
  split.
  - apply (out_of_range_is_unimplemented scenario 32). left. simpl. lia.
  - apply (out_of_range_is_unimplemented scenario (-1)). right. lia.
Defined.

(** C2 as stated fails.  The sample architecture satisfies the invariant
    [MaxGPR + MaxFPR <= MaxVirtualRegisters] and yet slot 64 has no name
    after [set_regName]: not every entry of [0, MaxVirtualRegisters) is
    a non-empty name. *)
Lemma stack_slots_left_unnamed :
  MaxGPR scenario + MaxFPR scenario ≤ MaxVirtualRegisters scenario ∧
  ¬ ∃ t' : table gpr fpr,
      runs_to (constants scenario) start t' ∧
      ∀ i : Z, 0 ≤ i < MaxVirtualRegisters scenario →
        ∃ n : string, regName t' !! i = Some n ∧ n ≠ EmptyString.
Proof.
  split; [simpl; lia|]. intros (t' & Hrun & Hall).
  destruct (set_regName_phases (constants scenario) start)
    as (t1 & t2 & t'' & Hph & Hrun'').
  assert (t' = t'') as ->.
  { apply (runs_to_unique (constants scenario) start); [done|].
    by exists (enough (constants scenario)). }
  destruct (Hall 64) as (n & Hn & _); [simpl; lia|].
  destruct (phases_rest _ _ _ _ _ 64 Hph) as [Hnone _].
  { unfold fpr_end, gpr_end. simpl. lia. }
  rewrite Hnone in Hn. discriminate.
Qed.

(** C5 as stated fails.  Index 0 lies in [0, MaxGPR), but
    [as_Register] called on it returns no register. *)
Lemma reverse_lookup_returns_nothing :
  0 ≤ 0 < MaxGPR scenario ∧
  ¬ ∃ (t' : table gpr fpr) (r : gpr),
      runs_to (constants scenario) start t' ∧
      VMRegImpl.as_Register 0 = Returns r ∧
      regName t' !! 0 = Some (name r).
Proof.
  split; [simpl; lia|]. intros (t' & r & _ & Hr & _). discriminate.
Qed.

(** C6 as stated fails.  Index 32 is not below [MaxGPR] and index -1 is
    negative, and for neither does [as_Register] fail with
    [OutOfRange]. *)
Lemma no_out_of_range_error :
  MaxGPR scenario ≤ 32 ∧
  VMRegImpl.as_Register (Register := gpr) 32 ≠ Signals OutOfRange ∧
  VMRegImpl.as_Register (Register := gpr) (-1) ≠ Signals OutOfRange.
Proof. split; [simpl; lia|]. split; discriminate. Qed.

(** C7 as stated fails.  On the sample architecture index 65 lies in
    [MaxGPR + MaxFPR, MaxVirtualRegisters), but the run has stopped in
    the trap at index 64 and never signals for 65: the indices that are
    signalled are not exactly those of that range. *)
Lemma higher_indices_never_reached :
  MaxGPR scenario + MaxFPR scenario ≤ 65 < MaxVirtualRegisters scenario ∧
  ¬ ∃ t' : table gpr fpr,
      runs_to (constants scenario) start t' ∧
      ∀ i : Z,
        (i, UnimplementedPath) ∈ signalled t' ↔
        MaxGPR scenario + MaxFPR scenario ≤ i < MaxVirtualRegisters scenario.
Proof.
  split; [simpl; lia|]. intros (t' & Hrun & Hall).
  destruct (set_regName_phases (constants scenario) start)
    as (t1 & t2 & t'' & Hph & Hrun'').
  assert (t' = t'') as ->.
  { apply (runs_to_unique (constants scenario) start); [done|].
    by exists (enough (constants scenario)). }
  assert (Hin : (65, UnimplementedPath) ∈ signalled t'')
    by (apply Hall; simpl; lia).
  rewrite (phases_signalled _ _ _ _ _ Hph) in Hin.
  apply elem_of_app in Hin as [Hin|Hin]; [by apply elem_of_nil in Hin|].
  apply elem_of_trap_index in Hin as (_ & Hin & _).
  unfold fpr_end, gpr_end in Hin. simpl in Hin. lia.
Qed.

(** C10 as stated fails, twice.  With [max_gpr = 32], [max_fpr = 64] and
    a table of one entry, [number_of_registers <= max_fpr] holds, but the
    run does not write "exactly the slots [0, max_fpr)" of the table: the
    stores from index 1 on fall outside it.  And with the constants
    [-5], [-3], [-1], [number_of_registers] exceeds the larger of the
    other two, but the trap is not reached. *)
Lemma stores_outside_or_no_trap :
  (32 ≤ 64 ∧ 1 ≤ 64 ∧
   ¬ ∃ t' : table gpr fpr,
       runs_to {| max_gpr := 32; max_fpr := 64; number_of_registers := 1 |}
         start t' ∧
       signalled t' = [] ∧ overrun t' = [] ∧
       ∀ j : Z, is_Some (regName t' !! j) ↔ 0 ≤ j < 64) ∧
  (Z.max (-5) (-3) < -1 ∧
   ¬ ∃ (t' : table gpr fpr) (i : Z),
       runs_to {| max_gpr := -5; max_fpr := -3; number_of_registers := -1 |}
         start t' ∧
       (i, UnimplementedPath) ∈ signalled t').
Proof.
  split.
  - split; [lia|]. split; [lia|]. intros (t' & Hrun & _ & Hv & _).
    set (C := {| max_gpr := 32; max_fpr := 64; number_of_registers := 1 |})
      in *.
    destruct (set_regName_phases C start) as (t1 & t2 & t'' & Hph & Hrun'').
    assert (t' = t'') as ->.
    { apply (runs_to_unique C start); [done|]. by exists (enough C). }
    destruct (phases_overrun _ _ _ _ _ Hph) as (l & Hl & Hmem).
    assert (Hin : 63 ∈ l).
    { apply Hmem. unfold fpr_end, gpr_end. simpl. lia. }
    rewrite Hv in Hl. simpl in Hl. subst l. by apply elem_of_nil in Hin.
  - split; [lia|]. intros (t' & i & Hrun & Hin).
    set (C := {| max_gpr := -5; max_fpr := -3; number_of_registers := -1 |})
      in *.
    destruct (set_regName_phases C start) as (t1 & t2 & t'' & Hph & Hrun'').
    assert (t' = t'') as ->.
    { apply (runs_to_unique C start); [done|]. by exists (enough C). }
    rewrite (phases_signalled _ _ _ _ _ Hph) in Hin.
    apply elem_of_app in Hin as [Hin|Hin]; [by apply elem_of_nil in Hin|].
    apply elem_of_trap_index in Hin as (_ & _ & Hin).
    unfold fpr_end, gpr_end in Hin. simpl in Hin. lia.
Qed.

End OnSample.

(** ** Further properties of [set_regName]

    All of them are stated over the constants as [set_regName] reads
    them, without any assumption on how they relate beyond the
    hypotheses written out. *)

Section Overwriting.
Context {Register FloatRegister : Type}.
Context `{!AbstractRegisterImpl Register}.
Context `{!AbstractRegisterImpl FloatRegister}.

Local Abbreviation physical := (physical Register FloatRegister).
Local Abbreviation table := (table Register FloatRegister).

(** Below the cursor at which the float loop stops, what a run leaves at
    an index depends neither on the table it started from nor on
    [number_of_registers]. *)
Lemma phases_inside (C C' : ConcreteRegisterImpl) (t t1 t2 t' : table)
    (s s1 s2 s' : table) (j : Z) :
  max_gpr C = max_gpr C' → max_fpr C = max_fpr C' →
  phases C t t1 t2 t' → phases C' s s1 s2 s' →
  0 ≤ j < fpr_end C →
  regName t' !! j = regName s' !! j ∧
  origin t' !! j = origin s' !! j ∧
  ∃ p : physical,
    origin t' !! j = Some p ∧ regName t' !! j = Some (physical_name p).
Proof.
  intros Eg Ef Ht Hs Hj. unfold fpr_end, gpr_end in Hj.
  destruct (decide (j < max_gpr C)) as [Hlt|Hge].
  - destruct (phases_gpr _ _ _ _ _ j Ht) as [-> ->]; [lia|].
    destruct (phases_gpr _ _ _ _ _ j Hs) as [-> ->]; [lia|].
    split; [done|]. split; [done|]. by eexists.
  - destruct (phases_fpr _ _ _ _ _ j Ht) as [-> ->]; [unfold gpr_end; lia|].
    destruct (phases_fpr _ _ _ _ _ j Hs) as [-> ->]; [unfold gpr_end; lia|].
    unfold gpr_end. rewrite Eg. split; [done|]. split; [done|]. by eexists.
Qed.

Lemma fpr_end_same (C C' : ConcreteRegisterImpl) :
  max_gpr C = max_gpr C' → max_fpr C = max_fpr C' → fpr_end C = fpr_end C'.
Proof. unfold fpr_end, gpr_end. by intros -> ->. Qed.

(** X1: a run on a table that already has content gives the result of the
    run on the fresh table laid over that content: the names and the
    mapped registers of the fresh run win wherever it wrote, the old
    content survives everywhere else, and the conditions of the fresh run
    are appended to the ones signalled before. *)
Theorem set_regName_overlays (C : ConcreteRegisterImpl) (t : table) :
  ∃ t0 t' : table,
    runs_to C VMRegImpl.initial t0 ∧
    runs_to C t t' ∧
    regName t' = regName t0 ∪ regName t ∧
    origin t' = origin t0 ∪ origin t ∧
    signalled t' = signalled t ++ signalled t0.
Proof.
  destruct (set_regName_phases C (VMRegImpl.initial : table))
    as (s1 & s2 & t0 & H0 & Hrun0).
  destruct (set_regName_phases C t) as (t1 & t2 & t' & Ht & Hrun).
  exists t0, t'.
  split; [by exists (enough C)|]. split; [by exists (enough C)|].
  assert (Hlook : ∀ j : Z,
            regName t' !! j = (regName t0 ∪ regName t) !! j ∧
            origin t' !! j = (origin t0 ∪ origin t) !! j).
  { intros j. destruct (decide (0 ≤ j < fpr_end C)) as [Hj|Hj].
    - destruct (phases_inside C C _ _ _ _ _ _ _ _ j eq_refl eq_refl H0 Ht Hj)
        as (En & Eo & p & Ho & Hn).
      rewrite <- En, <- Eo, Hn, Ho.
      split; symmetry; by apply lookup_union_Some_l.
    - destruct (phases_rest _ _ _ _ _ j Ht Hj) as [-> ->].
      destruct (phases_rest _ _ _ _ _ j H0 Hj) as [Hn Ho].
      simpl in Hn, Ho. rewrite lookup_empty in Hn. rewrite lookup_empty in Ho.
      by rewrite !lookup_union_r. }
  split; [apply map_eq; intros j; apply Hlook|].
  split; [apply map_eq; intros j; apply Hlook|].
  rewrite (phases_signalled _ _ _ _ _ Ht), (phases_signalled _ _ _ _ _ H0).
  done.
Qed.

(** X2: running [set_regName] a second time rebuilds the same table: the
    names and the mapped registers are those of the first run, and the
    second run signals again exactly what the first one signalled. *)
Theorem set_regName_twice (C : ConcreteRegisterImpl) (t : table) :
  ∃ (t' t'' : table) (l : list (Z * condition)),
    runs_to C t t' ∧
    runs_to C t' t'' ∧
    regName t'' = regName t' ∧
    origin t'' = origin t' ∧
    signalled t' = signalled t ++ l ∧
    signalled t'' = signalled t' ++ l.
Proof.
  destruct (set_regName_phases C t) as (t1 & t2 & t' & Ht & Hrun).
  destruct (set_regName_phases C t') as (u1 & u2 & t'' & Hu & Hrun').
  exists t', t'',
    (if bool_decide (fpr_end C < number_of_registers C)
     then [(fpr_end C, UnimplementedPath)] else []).
  split; [by exists (enough C)|]. split; [by exists (enough C)|].
  assert (Hlook : ∀ j : Z,
            regName t'' !! j = regName t' !! j ∧
            origin t'' !! j = origin t' !! j).
  { intros j. destruct (decide (0 ≤ j < fpr_end C)) as [Hj|Hj].
    - destruct (phases_inside C C _ _ _ _ _ _ _ _ j eq_refl eq_refl Hu Ht Hj)
        as (En & Eo & _). done.
    - by apply (phases_rest _ _ _ _ _ j Hu). }
  split; [apply map_eq; intros j; apply Hlook|].
  split; [apply map_eq; intros j; apply Hlook|].
  split; [by apply (phases_signalled _ _ _ _ _ Ht)|].
  by apply (phases_signalled _ _ _ _ _ Hu).
Qed.

(** X3: as long as the table has room for every name, that is
    [number_of_registers] is at least the larger of [max_gpr] and
    [max_fpr], its value has no influence on the names: with the same
    [max_gpr] and [max_fpr] and another such value [n] in its place, a
    run from the same table ends with the same names and the same mapped
    registers, and in neither run does a store fall outside the table. *)
Theorem names_independent_of_number_of_registers
    (C : ConcreteRegisterImpl) (n : Z) (t : table) :
  Z.max (max_gpr C) (max_fpr C) ≤ number_of_registers C →
  Z.max (max_gpr C) (max_fpr C) ≤ n →
  ∃ t' t'' : table,
    runs_to C t t' ∧
    runs_to {| max_gpr := max_gpr C; max_fpr := max_fpr C;
               number_of_registers := n |} t t'' ∧
    regName t' = regName t'' ∧
    origin t' = origin t'' ∧
    overrun t' = overrun t ∧
    overrun t'' = overrun t.
Proof.
  intros Hroom Hroom'.
  set (C' := {| max_gpr := max_gpr C; max_fpr := max_fpr C;
                number_of_registers := n |}).
  destruct (set_regName_phases C t) as (t1 & t2 & t' & Ht & Hrun).
  destruct (set_regName_phases C' t) as (u1 & u2 & t'' & Hu & Hrun').
  exists t', t''.
  split; [by exists (enough C)|]. split; [by exists (enough C')|].
  assert (Hlook : ∀ j : Z,
            regName t' !! j = regName t'' !! j ∧
            origin t' !! j = origin t'' !! j).
  { intros j. destruct (decide (0 ≤ j < fpr_end C)) as [Hj|Hj].
    - destruct (phases_inside C C' _ _ _ _ _ _ _ _ j eq_refl eq_refl Ht Hu Hj)
        as (En & Eo & _). done.
    - destruct (phases_rest _ _ _ _ _ j Ht Hj) as [-> ->].
      destruct (phases_rest _ _ _ _ _ j Hu) as [-> ->]; [|done].
      by rewrite <- (fpr_end_same C C'). }
  split; [apply map_eq; intros j; apply Hlook|].
  split; [apply map_eq; intros j; apply Hlook|].
  split.
  - destruct (phases_overrun _ _ _ _ _ Ht) as (l & -> & Hmem).
    rewrite (elem_of_nil_inv l); [by rewrite app_nil_r|].
    intros j Hj. apply Hmem in Hj. unfold fpr_end, gpr_end in Hj. lia.
  - destruct (phases_overrun _ _ _ _ _ Hu) as (l & -> & Hmem).
    rewrite (elem_of_nil_inv l); [by rewrite app_nil_r|].
    intros j Hj. apply Hmem in Hj. unfold fpr_end, gpr_end in Hj.
    simpl in Hj. lia.
Qed.

End Overwriting.

Section Edges.
Context {Register FloatRegister : Type}.
Context `{!AbstractRegisterImpl Register}.
Context `{!AbstractRegisterImpl FloatRegister}.

Local Abbreviation physical := (physical Register FloatRegister).
Local Abbreviation table := (table Register FloatRegister).

(** X4: the fill loops never compare the cursor with
    [number_of_registers], so nothing keeps the stores inside the table:
    for a table of [number_of_registers >= 0] entries, a run stores
    outside the table exactly at the indices from [number_of_registers]
    up to the larger of [max_gpr] and [max_fpr].  All stores are inside
    if and only if that bound does not exceed [number_of_registers], and
    a run that stores outside signals nothing. *)
Theorem stores_inside_table_iff (C : ConcreteRegisterImpl) (t : table) :
  0 ≤ number_of_registers C →
  ∃ (t' : table) (l : list Z),
    runs_to C t t' ∧
    overrun t' = overrun t ++ l ∧
    (∀ j : Z,
       j ∈ l ↔ number_of_registers C ≤ j < Z.max (max_gpr C) (max_fpr C)) ∧
    (l = [] ↔ Z.max (max_gpr C) (max_fpr C) ≤ number_of_registers C) ∧
    (l ≠ [] → signalled t' = signalled t).
Proof.
  intros Hn.
  destruct (set_regName_phases C t) as (t1 & t2 & t' & Ht & Hrun).
  destruct (phases_overrun _ _ _ _ _ Ht) as (l & Hl & Hmem).
  assert (Hmem' : ∀ j : Z,
            j ∈ l ↔ number_of_registers C ≤ j < Z.max (max_gpr C) (max_fpr C)).
  { intros j. rewrite Hmem. unfold fpr_end, gpr_end. lia. }
  assert (Hnil : l = [] ↔ Z.max (max_gpr C) (max_fpr C) ≤ number_of_registers C).
  { split.
    - intros ->.
      destruct (decide (Z.max (max_gpr C) (max_fpr C) ≤ number_of_registers C))
        as [|Hgt]; [done|].
      assert (Hin : number_of_registers C ∈ @nil Z) by (apply Hmem'; lia).
      by apply elem_of_nil in Hin.
    - intros Hle. apply elem_of_nil_inv. intros j Hj. apply Hmem' in Hj. lia. }
  exists t', l. split; [by exists (enough C)|].
  split; [done|]. split; [done|]. split; [done|].
  intros Hne. rewrite (phases_signalled _ _ _ _ _ Ht).
  rewrite bool_decide_eq_false_2; [by rewrite app_nil_r|].
  intros Hlt. apply Hne, Hnil. unfold fpr_end, gpr_end in Hlt. lia.
Qed.

(** X5: when [max_gpr] is not positive the integer loop does not run, and
    the float registers are named from slot 0 on: slot [j] below [max_fpr]
    receives the name of the [j]-th float register, and no other slot is
    touched. *)
Theorem float_registers_from_slot_0 (C : ConcreteRegisterImpl) (t : table) :
  max_gpr C ≤ 0 →
  ∃ t' : table,
    runs_to C t t' ∧
    (∀ j : Z, 0 ≤ j < max_fpr C →
       regName t' !! j =
         Some (name (nth_successor j (as_FloatRegister 0 : FloatRegister))) ∧
       origin t' !! j =
         Some (Float (nth_successor j (as_FloatRegister 0)))) ∧
    (∀ j : Z, ¬ (0 ≤ j < max_fpr C) →
       regName t' !! j = regName t !! j ∧ origin t' !! j = origin t !! j).
Proof.
  intros Hg.
  destruct (set_regName_phases C t) as (t1 & t2 & t' & Ht & Hrun).
  assert (Eg : gpr_end C = 0) by (unfold gpr_end; lia).
  exists t'. split; [by exists (enough C)|]. split.
  - intros j Hj.
    destruct (phases_fpr _ _ _ _ _ j Ht) as [Hn Ho]; [rewrite Eg; lia|].
    rewrite Eg in Hn, Ho. by replace (j - 0) with j in Hn, Ho by lia.
  - intros j Hj. apply (phases_rest _ _ _ _ _ j Ht).
    unfold fpr_end. rewrite Eg. lia.
Qed.


(** X7: on the fresh table a run signals at most one condition, and the
    index at which it does is the first one without a name: every index
    from 0 up to it has received a name, and neither it nor any higher
    index has.  In particular no index is both named and signalled. *)
Theorem signalled_index_is_first_unnamed (C : ConcreteRegisterImpl) :
  ∃ t' : table,
    runs_to C VMRegImpl.initial t' ∧
    (length (signalled t') ≤ 1)%nat ∧
    ∀ (i : Z) (c : condition),
      (i, c) ∈ signalled t' →
      c = UnimplementedPath ∧
      0 ≤ i < number_of_registers C ∧
      (∀ j : Z, 0 ≤ j < i → is_Some (regName t' !! j)) ∧
      (∀ j : Z, i ≤ j → regName t' !! j = None).
Proof.
  destruct (set_regName_phases C (VMRegImpl.initial : table))
    as (t1 & t2 & t' & Ht & Hrun).
  pose proof (phases_signalled _ _ _ _ _ Ht) as Hs. simpl in Hs.
  exists t'. split; [by exists (enough C)|]. split.
  - rewrite Hs. case_bool_decide; simpl; lia.
  - intros i c Hin. rewrite Hs in Hin.
    apply elem_of_trap_index in Hin as (-> & -> & Hlt).
    split; [done|]. split; [unfold fpr_end, gpr_end in *; lia|]. split.
    + intros j Hj.
      destruct (phases_inside C C _ _ _ _ _ _ _ _ j eq_refl eq_refl Ht Ht)
        as (_ & _ & p & _ & ->); [lia|done].
    + intros j Hj. destruct (phases_rest _ _ _ _ _ j Ht) as [-> _]; [lia|].
      simpl. apply lookup_empty.
Qed.

End Edges.

Section DistinctNames.
Context {Register FloatRegister : Type}.
Context `{!AbstractRegisterImpl Register}.
Context `{!AbstractRegisterImpl FloatRegister}.
Context `{!NextNumbered Register}.
Context `{!NextNumbered FloatRegister}.

Local Abbreviation physical := (physical Register FloatRegister).
Local Abbreviation table := (table Register FloatRegister).

(** X8: when no two physical registers share a display name, no two
    slots below the larger of [max_gpr] and [max_fpr] hold the same name
    after [set_regName]: a name found in the table identifies its
    index. *)
Theorem names_identify_indices (C : ConcreteRegisterImpl) (t : table) :
  (∀ p q : physical, physical_name p = physical_name q → p = q) →
  ∃ t' : table,
    runs_to C t t' ∧
    ∀ (i j : Z) (n : string),
      0 ≤ i < Z.max (max_gpr C) (max_fpr C) →
      0 ≤ j < Z.max (max_gpr C) (max_fpr C) →
      regName t' !! i = Some n → regName t' !! j = Some n → i = j.
Proof.
  intros Hinj.
  destruct (set_regName_phases C t) as (t1 & t2 & t' & Ht & Hrun).
  exists t'. split; [by exists (enough C)|].
  intros i j n Hi Hj Hni Hnj.
  assert (Hreg : ∀ k : Z, 0 ≤ k < Z.max (max_gpr C) (max_fpr C) →
            (k < max_gpr C ∧
             regName t' !! k =
               Some (name (nth_successor k (as_Register 0 : Register)))) ∨
            (max_gpr C ≤ k ∧
             regName t' !! k =
               Some (name (nth_successor (k - gpr_end C)
                             (as_FloatRegister 0 : FloatRegister))))).
  { intros k Hk. destruct (decide (k < max_gpr C)) as [Hlt|Hge].
    - left. split; [done|].
      destruct (phases_gpr _ _ _ _ _ k Ht) as [-> _]; [lia|done].
    - right. split; [lia|].
      destruct (phases_fpr _ _ _ _ _ k Ht) as [-> _];
        [unfold gpr_end; lia|done]. }
  destruct (Hreg i Hi) as [[Hil Hi']|[Hig Hi']];
    destruct (Hreg j Hj) as [[Hjl Hj']|[Hjg Hj']];
    rewrite Hi' in Hni; rewrite Hj' in Hnj;
    injection Hni as Hni; injection Hnj as Hnj.
  - assert (E := Hinj (Integer _) (Integer _) (eq_trans Hni (eq_sym Hnj))).
    injection E as E. apply (f_equal encoding) in E.
    rewrite !encoding_nth_register in E by lia. done.
  - assert (E := Hinj (Integer _) (Float _) (eq_trans Hni (eq_sym Hnj))).
    discriminate E.
  - assert (E := Hinj (Float _) (Integer _) (eq_trans Hni (eq_sym Hnj))).
    discriminate E.
  - assert (E := Hinj (Float _) (Float _) (eq_trans Hni (eq_sym Hnj))).
    injection E as E. apply (f_equal encoding) in E.
    rewrite !encoding_nth_float_register in E by (unfold gpr_end; lia). lia.
Qed.

End DistinctNames.

(** ** The further properties on sample constants *)

Section FurtherOnSample.
Import Sample.

Lemma sample_names_distinct :
  ∀ p q : physical gpr fpr, physical_name p = physical_name q → p = q.
Proof.
  intros [[e]|[e]] [[e']|[e']]; simpl; intros E;
    try discriminate E; injection E as E; apply pretty_Z_inj in E;
    by subst.
Defined.

(** X3 on tables of 6 and of 9 entries for two integer and two float
    registers. *)
Lemma names_independent_of_number_of_registers_witness :
  ∃ t' t'' : table gpr fpr,
    runs_to {| max_gpr := 2; max_fpr := 4; number_of_registers := 6 |}
      start t' ∧
    runs_to {| max_gpr := 2; max_fpr := 4; number_of_registers := 9 |}
      start t'' ∧
    regName t' = regName t'' ∧ overrun t' = [] ∧ overrun t'' = [].
Proof.
  destruct (names_independent_of_number_of_registers
              {| max_gpr := 2; max_fpr := 4; number_of_registers := 6 |}
              9 start)
    as (t' & t'' & Hrun & Hrun' & Hn & _ & Hv & Hv'); [simpl; lia|simpl; lia|].
  exists t', t''. split; [exact Hrun|]. split; [exact Hrun'|].
  split; [exact Hn|]. split; [exact Hv|exact Hv'].
Defined.

(** X4 on a table of three entries for two integer and two float
    registers: the store at index 3 is outside the table, the one at
    index 2 is not, and nothing is signalled. *)
Lemma stores_inside_table_iff_witness :
  ∃ t' : table gpr fpr,
    runs_to {| max_gpr := 2; max_fpr := 4; number_of_registers := 3 |}
      start t' ∧
    3 ∈ overrun t' ∧ (2 ∉ overrun t') ∧ signalled t' = [].
Proof.
  destruct (stores_inside_table_iff
              {| max_gpr := 2; max_fpr := 4; number_of_registers := 3 |}
              start)
    as (t' & l & Hrun & Hv & Hmem & _ & Hs); [simpl; lia|].
  exists t'. split; [exact Hrun|].
  assert (H3 : 3 ∈ l) by (apply Hmem; simpl; lia).
  rewrite Hv. split; [exact H3|]. split.
  - intros H2. apply Hmem in H2. simpl in H2. lia.
  - apply Hs. intros ->. by apply elem_of_nil in H3.
Defined.

(** X5 on constants without integer registers. *)
Lemma float_registers_from_slot_0_witness :
  ∃ t' : table gpr fpr,
    runs_to {| max_gpr := 0; max_fpr := 3; number_of_registers := 5 |}
      start t' ∧
    regName t' !! 0 = Some "f0" ∧ regName t' !! 2 = Some "f2" ∧
    regName t' !! 3 = None.
Proof.
  destruct (float_registers_from_slot_0
              {| max_gpr := 0; max_fpr := 3; number_of_registers := 5 |}
              start)
    as (t' & Hrun & Hin & Hout); [simpl; lia|].
  exists t'. split; [exact Hrun|].
  destruct (Hin 0) as [H0 _]; [simpl; lia|].
  destruct (Hin 2) as [H2 _]; [simpl; lia|].
  destruct (Hout 3) as [H3 _]; [simpl; lia|].
  rewrite H0, H2, H3. repeat split; reflexivity.
Defined.


(** X7 on the sample architecture, for index 64. *)
Lemma signalled_index_is_first_unnamed_witness :
  ∃ t' : table gpr fpr,
    runs_to (constants scenario) start t' ∧
    (length (signalled t') ≤ 1)%nat ∧
    ((64, UnimplementedPath) ∈ signalled t' →
     is_Some (regName t' !! 63) ∧ regName t' !! 64 = None).
Proof.
  destruct (signalled_index_is_first_unnamed (Register := gpr)
              (FloatRegister := fpr) (constants scenario))
    as (t' & Hrun & Hlen & H).
  exists t'. split; [exact Hrun|]. split; [exact Hlen|].
  intros Hin. destruct (H 64 UnimplementedPath Hin) as (_ & _ & Hb & Ha).
  split; [apply Hb; lia|apply Ha; lia].
Defined.

(** X8 on the sample architecture: slots 5 and 40 cannot hold the same
    name. *)
Lemma names_identify_indices_witness :
  ∃ t' : table gpr fpr,
    runs_to (constants scenario) start t' ∧
    ∀ n : string,
      regName t' !! 5 = Some n → regName t' !! 40 = Some n → False.
Proof.
  destruct (names_identify_indices (constants scenario) start
              sample_names_distinct) as (t' & Hrun & H).
  exists t'. split; [exact Hrun|].
  intros n H5 H40.
  assert (E : 5 = 40) by (apply (H 5 40 n); [simpl; lia|simpl; lia|done|done]).
  discriminate E.
Defined.

End FurtherOnSample.
